(** * The recipe store of recipes-api (package main)

    A shallow embedding of the five HTTP handlers of the service and of the
    package-level slice [recipes] they share, followed by the properties of
    the store: which element an id scan selects, what update, delete and
    create do to the collection, and what the tag search returns. *)

From Stdlib Require Import ZArith Ascii String List Lia.
From stdpp Require Import base decidable option list strings.

Local Open Scope string_scope.
Local Open Scope list_scope.
Local Open Scope nat_scope.

(** ** Go strings and [strings.EqualFold]

    A Go string is a sequence of bytes; [string] (a list of 8-bit [ascii])
    is exactly that.  [strings.EqualFold] is a function of Go's standard
    library.  Its first loop, the byte-wise ASCII fast path, is embedded
    here as it is written in package strings.  As soon as one of the two
    bytes under inspection is [>= utf8.RuneSelf] the library jumps to a
    rune-wise loop driven by the case-folding tables of package unicode;
    that loop is the Section variable [hasUnicode], applied to the two
    unread suffixes [s[i:]] and [t[i:]]. *)

Module GoStrings.

(** The numeric value of a byte. *)
Definition byte (c : ascii) : Z := Z.of_N (N_of_ascii c).

(** [utf8.RuneSelf]: bytes below it are one-byte runes. *)
Definition RuneSelf : Z := 128.

(** Arithmetic on Go's [uint8] wraps around. *)
Definition u8 (z : Z) : Z := z mod 256.

Section Fold.
Variable hasUnicode : string → string → bool.

(** The loop [for ; i < len(s) && i < len(t); i++] runs over the two
    strings in step, so the recursion is on both suffixes; when one is
    exhausted, [len(s) == len(t)] holds exactly when both are. *)
Fixpoint EqualFold (s t : string) : bool :=
  match s, t with
  | String cs s', String ct t' =>
      let sr := byte cs in
      let tr := byte ct in
      if (RuneSelf <=? Z.lor sr tr)%Z then hasUnicode s t
      else if (tr =? sr)%Z then EqualFold s' t'
      else
        let '(sr, tr) := if (tr <? sr)%Z then (tr, sr) else (sr, tr) in
        if (65 <=? sr)%Z && (sr <=? 90)%Z && (tr =? u8 (u8 (sr + 97) - 65))%Z
        then EqualFold s' t'
        else false
  | _, _ => (String.length s =? String.length t)%nat
  end.
End Fold.

(** The lower-case form of an ASCII byte and of a string, the yardstick
    for [EqualFold] on ASCII text. *)
Definition lower (c : ascii) : ascii :=
  if (65 <=? byte c)%Z && (byte c <=? 90)%Z
  then ascii_of_N (Z.to_N (byte c + 32)) else c.

Fixpoint ToLower (s : string) : string :=
  match s with
  | EmptyString => EmptyString
  | String c s' => String (lower c) (ToLower s')
  end.

Fixpoint isASCII (s : string) : bool :=
  match s with
  | EmptyString => true
  | String c s' => (byte c <? RuneSelf)%Z && isASCII s'
  end.

End GoStrings.

(** ** The data model *)

(** [time.Time], an opaque instant. *)
Definition Time : Type := Z.

Record Recipe : Type := mkRecipe {
  ID : string;
  Name : string;
  Tags : list string;
  Ingredients : list string;
  Instructions : list string;
  PublishedAt : Time
}.

#[global] Instance Recipe_eq_dec : EqDecision Recipe.
Proof. solve_decision. Defined.

(** ** Slices

    The package variable [recipes] is modelled by the elements visible
    through the slice, in order.  Indexing and slicing outside the bounds
    is a run-time panic in Go: [None].  (Go checks a slicing expression
    against the capacity; the check against the length made here is the
    stricter one.) *)

(** [a[i] = v] *)
Definition set_index {A} (a : list A) (i : Z) (v : A) : option (list A) :=
  if bool_decide (0 ≤ i < Z.of_nat (length a))%Z
  then Some (<[Z.to_nat i := v]> a) else None.

(** [a[lo:hi]] *)
Definition slice {A} (a : list A) (lo hi : Z) : option (list A) :=
  if bool_decide (0 ≤ lo ∧ lo ≤ hi ∧ hi ≤ Z.of_nat (length a))%Z
  then Some (take (Z.to_nat (hi - lo)) (drop (Z.to_nat lo) a)) else None.

(** [len(a)] *)
Definition len {A} (a : list A) : Z := Z.of_nat (length a).

(** ** Requests and responses *)

(** What [c.ShouldBindJSON(&recipe)] leaves: the decoded payload, or the
    error of a malformed body. *)
Inductive Binding : Type :=
| Bound (recipe : Recipe)
| BindError (err : string).

(** The bodies handed to [c.JSON]. *)
Inductive Body : Type :=
| JSONRecipe (recipe : Recipe)
| JSONRecipes (listOfRecipes : list Recipe)
| JSONError (error : string)
| JSONMessage (message : string).

Record Response : Type := mkResponse { Status : Z; Payload : Body }.

Definition StatusOK : Z := 200.
Definition StatusBadRequest : Z := 400.
Definition StatusNotFound : Z := 404.

(** [c.Query("tag")]: the value of the query parameter, the empty string
    when the parameter is absent. *)
Definition Query (q : option string) : string :=
  match q with Some v => v | None => "" end.

(** ** The handlers

    Each handler is a function of the request and of the value of
    [recipes] before the call, to the response and the value of [recipes]
    after it. *)

(** [NewRecipeHandler]; [xid_New] is the string of [xid.New()] and [now]
    the instant of [time.Now()] at this call. *)
Definition NewRecipeHandler (xid_New : string) (now : Time)
    (body : Binding) (recipes : list Recipe) : Response * list Recipe :=
  match body with
  | BindError err => (mkResponse StatusBadRequest (JSONError err), recipes)
  | Bound recipe =>
      let recipe := mkRecipe xid_New (Name recipe) (Tags recipe)
                      (Ingredients recipe) (Instructions recipe)
                      (PublishedAt recipe) in
      let recipe := mkRecipe (ID recipe) (Name recipe) (Tags recipe)
                      (Ingredients recipe) (Instructions recipe) now in
      let recipes := recipes ++ [recipe] in
      (mkResponse StatusOK (JSONRecipe recipe), recipes)
  end.

(** [ListRecipesHandler] *)
Definition ListRecipesHandler (recipes : list Recipe) : Response * list Recipe :=
  (mkResponse StatusOK (JSONRecipes recipes), recipes).

(** The id scan of [UpdateRecipeHandler] and [DeleteRecipeHandler]:
<<
    index := -1
    for i := 0; i < len(recipes); i++ {
        if recipes[i].ID == id { index = i }
    }
>>
    [scan id rest i index] is the loop from counter [i] on, [rest] being
    [recipes[i:]], with the current value of [index]. *)
Fixpoint scan (id : string) (rest : list Recipe) (i index : Z) : Z :=
  match rest with
  | [] => index
  | r :: rest' =>
      scan id rest' (i + 1) (if bool_decide (ID r = id) then i else index)
  end.

Definition find_index (id : string) (recipes : list Recipe) : Z :=
  scan id recipes 0 (-1).

(** [UpdateRecipeHandler]; [id] is [c.Param("id")]. *)
Definition UpdateRecipeHandler (id : string) (body : Binding)
    (recipes : list Recipe) : option (Response * list Recipe) :=
  match body with
  | BindError err =>
      Some (mkResponse StatusBadRequest (JSONError err), recipes)
  | Bound recipe =>
      let index := find_index id recipes in
      if bool_decide (index = (-1)%Z)
      then Some (mkResponse StatusNotFound (JSONError "Recipe not found"), recipes)
      else
        recipes ← set_index recipes index recipe;
        Some (mkResponse StatusOK (JSONRecipe recipe), recipes)
  end.

(** [DeleteRecipeHandler]; the new slice is
    [append(recipes[:index], recipes[index+1:]...)]. *)
Definition DeleteRecipeHandler (id : string)
    (recipes : list Recipe) : option (Response * list Recipe) :=
  let index := find_index id recipes in
  if bool_decide (index = (-1)%Z)
  then Some (mkResponse StatusNotFound (JSONError "Recipe not found"), recipes)
  else
    front ← slice recipes 0 index;
    back ← slice recipes (index + 1) (len recipes);
    let recipes := front ++ back in
    Some (mkResponse StatusOK (JSONMessage "Recipe has been deleted"), recipes).

Section Search.
Variable hasUnicode : string → string → bool.

(** The inner loop [for _, t := range recipes[i].Tags], with the
    current value of [found]. *)
Fixpoint tag_loop (tag : string) (tags : list string) (found : bool) : bool :=
  match tags with
  | [] => found
  | t :: tags' =>
      tag_loop tag tags'
        (if GoStrings.EqualFold hasUnicode t tag then true else found)
  end.

(** The outer loop [for i := 0; i < len(recipes); i++], over
    [recipes[i:]], with the current value of [listOfRecipes]. *)
Fixpoint search_loop (tag : string) (rest : list Recipe)
    (listOfRecipes : list Recipe) : list Recipe :=
  match rest with
  | [] => listOfRecipes
  | r :: rest' =>
      let found := tag_loop tag (Tags r) false in
      search_loop tag rest'
        (if found then listOfRecipes ++ [r] else listOfRecipes)
  end.

(** [SearchRecipesHandler]; [q] is the query parameter [tag] of the
    request, if it has one. *)
Definition SearchRecipesHandler (q : option string)
    (recipes : list Recipe) : Response * list Recipe :=
  let tag := Query q in
  let listOfRecipes := search_loop tag recipes [] in
  (mkResponse StatusOK (JSONRecipes listOfRecipes), recipes).
End Search.

(** ** Sample data *)

Definition R1 : Recipe := mkRecipe "A" "Pasta" ["Italian"; "Quick"] [] [] 1%Z.
Definition R2 : Recipe := mkRecipe "B" "Tacos" ["mexican"] [] [] 2%Z.
Definition R3 : Recipe := mkRecipe "C" "Salad" [] [] [] 3%Z.


(** The same id twice, under different names, to tell the two elements
    apart. *)
Definition D1 : Recipe := mkRecipe "B" "Tacos al pastor" ["mexican"] [] [] 4%Z.
Definition D2 : Recipe := mkRecipe "B" "Tacos de pescado" ["mexican"] [] [] 5%Z.

(** A recipe with a blank tag. *)
Definition Blank : Recipe := mkRecipe "D" "Toast" ["Quick"; ""] [] [] 6%Z.

(** A recipe three of whose tags fold to "quick". *)
Definition Q3 : Recipe :=
  mkRecipe "E" "Omelette" ["Quick"; "quick"; "QUICK"] [] [] 7%Z.

(** ** The vocabulary of the properties *)

(** Position [k] holds an element with the given id. *)
Definition matches_at (id : string) (recipes : list Recipe) (k : nat) : Prop :=
  ∃ r, recipes !! k = Some r ∧ ID r = id.

(** Position [k] is the last one, in iteration order, that holds an element
    with the given id. *)
Definition last_match (id : string) (recipes : list Recipe) (k : nat) : Prop :=
  matches_at id recipes k ∧ ∀ j, matches_at id recipes j → j ≤ k.

(** Position [k] is the first one that does. *)
Definition first_match (id : string) (recipes : list Recipe) (k : nat) : Prop :=
  matches_at id recipes k ∧ ∀ j, matches_at id recipes j → k ≤ j.

(** The number of elements with the given id. *)
Definition count_id (id : string) (recipes : list Recipe) : nat :=
  length (filter (λ r, ID r = id) recipes).

(** The recipe has at least one tag that [strings.EqualFold] holds equal
    to the given tag string. *)
Definition has_tag (hasUnicode : string → string → bool)
    (tag : string) (r : Recipe) : Prop :=
  Exists (λ t, GoStrings.EqualFold hasUnicode t tag = true) (Tags r).

#[global] Instance has_tag_dec hasUnicode tag r :
  Decision (has_tag hasUnicode tag r).
Proof. unfold has_tag. apply _. Defined.

(** How often a recipe occurs in a sequence. *)
Definition occurrences (r : Recipe) (l : list Recipe) : nat :=
  length (filter (λ x, x = r) l).

(** The record [NewRecipeHandler] stores for a payload: the payload with
    [ID] and [PublishedAt] overwritten. *)
Definition stamped (xid_New : string) (now : Time) (payload : Recipe) : Recipe :=
  mkRecipe xid_New (Name payload) (Tags payload) (Ingredients payload)
    (Instructions payload) now.

(** A run of create requests, one call of [NewRecipeHandler] after the
    other; each request comes with the identifier and the instant its call
    draws. *)
Fixpoint create_all (requests : list (string * Time * Recipe))
    (recipes : list Recipe) : list Recipe :=
  match requests with
  | [] => recipes
  | (xid_New, now, payload) :: requests' =>
      create_all requests' (NewRecipeHandler xid_New now (Bound payload) recipes).2
  end.

(** The recipes of a search answer. *)
Definition found_recipes (answer : Response * list Recipe) : list Recipe :=
  match Payload answer.1 with
  | JSONRecipes listOfRecipes => listOfRecipes
  | _ => []
  end.

(** Every tag of every recipe is ASCII text. *)
Definition ascii_tags (recipes : list Recipe) : Prop :=
  Forall (λ r, Forall (λ t, GoStrings.isASCII t = true) (Tags r)) recipes.

(** ** Case folding

    [strings.EqualFold] is documented to report whether two strings, read
    as UTF-8, are equal under simple Unicode case folding.  The decoding
    and the folding tables belong to packages utf8 and unicode: [runes] is
    the conversion [[]rune(s)] (the code points of [s], an undecodable byte
    giving U+FFFD) and [fold] sends a code point to the representative of
    its folding orbit. *)

(** Equality under case folding: the same code points up to folding. *)
Definition fold_equal (runes : string → list Z) (fold : Z → Z)
    (s t : string) : Prop :=
  fold <$> runes s = fold <$> runes t.

#[global] Instance fold_equal_dec runes fold s t :
  Decision (fold_equal runes fold s t).
Proof. unfold fold_equal. apply _. Defined.

(** The recipe has at least one tag equal to the tag string under case
    folding. *)
Definition tagged_fold (runes : string → list Z) (fold : Z → Z)
    (tag : string) (r : Recipe) : Prop :=
  Exists (λ t, fold_equal runes fold t tag) (Tags r).

#[global] Instance tagged_fold_dec runes fold tag r :
  Decision (tagged_fold runes fold tag r).
Proof. unfold tagged_fold. apply _. Defined.

(** The recipe has at least one tag with the lower-case form of the tag
    string. *)
Definition tagged_lower (tag : string) (r : Recipe) : Prop :=
  Exists (λ t, GoStrings.ToLower t = GoStrings.ToLower tag) (Tags r).

#[global] Instance tagged_lower_dec tag r : Decision (tagged_lower tag r).
Proof. unfold tagged_lower. apply _. Defined.

(** What the library guarantees: the empty string has no code point and
    every other string has one; an ASCII byte is its own code point; two
    ASCII code points fold together exactly when they are the same letter
    in either case; and the rune-wise loop of [EqualFold] decides equality
    under case folding of the two strings it is given. *)
Record unicode_contract (runes : string → list Z) (fold : Z → Z)
    (hasUnicode : string → string → bool) : Prop := {
  runes_empty : runes "" = [];
  runes_nonempty : ∀ c s, runes (String c s) ≠ [];
  runes_ascii : ∀ c s,
    (GoStrings.byte c < GoStrings.RuneSelf)%Z →
    runes (String c s) = GoStrings.byte c :: runes s;
  fold_ascii : ∀ a b,
    (GoStrings.byte a < GoStrings.RuneSelf)%Z →
    (GoStrings.byte b < GoStrings.RuneSelf)%Z →
    fold (GoStrings.byte a) = fold (GoStrings.byte b)
    ↔ GoStrings.lower a = GoStrings.lower b;
  hasUnicode_spec : ∀ s t,
    hasUnicode s t = true ↔ fold_equal runes fold s t
}.

(** An instance of the contract, for text in a one-byte encoding: every
    byte is a code point, and only the ASCII letters fold. *)
Fixpoint byte_runes (s : string) : list Z :=
  match s with
  | EmptyString => []
  | String c s' => GoStrings.byte c :: byte_runes s'
  end.

Definition letter_fold (z : Z) : Z :=
  if (65 <=? z)%Z && (z <=? 90)%Z then (z + 32)%Z else z.

Definition byte_fold_loop (s t : string) : bool :=
  bool_decide (fold_equal byte_runes letter_fold s t).

(** * Properties *)

(** ** The id scan *)

Lemma matches_at_cons_0 id r rest :
  matches_at id (r :: rest) 0 ↔ ID r = id.
Proof.
  unfold matches_at; simpl. split.
  - intros (r' & [= <-] & H). done.
  - intros H. by exists r.
Qed.

Lemma matches_at_cons_S id r rest k :
  matches_at id (r :: rest) (S k) ↔ matches_at id rest k.
Proof. done. Qed.

Lemma matches_at_elem_of id recipes :
  (∃ k, matches_at id recipes k) ↔ ∃ r, r ∈ recipes ∧ ID r = id.
Proof.
  split.
  - intros (k & r & Hk & Hid). exists r. split; [|done].
    by eapply list_elem_of_lookup_2.
  - intros (r & [k Hk]%list_elem_of_lookup_1 & Hid). exists k, r. done.
Qed.

Lemma no_match_Forall id recipes :
  (∀ k, ¬ matches_at id recipes k) ↔ Forall (λ r, ID r ≠ id) recipes.
Proof.
  rewrite Forall_forall. split.
  - intros H r Hr Hid. apply list_elem_of_lookup_1 in Hr as [k Hk].
    apply (H k). by exists r.
  - intros H k (r & Hk & Hid). eapply H; [|done].
    by eapply list_elem_of_lookup_2.
Qed.

(** The loop, from any counter and any current [index]: either nothing in
    the rest matches and [index] comes out as it went in, or the counter
    of the last match does. *)
Lemma scan_spec id rest i index :
  (scan id rest i index = index ∧ ∀ k, ¬ matches_at id rest k)
  ∨ (∃ k, scan id rest i index = (i + Z.of_nat k)%Z ∧ last_match id rest k).
Proof.
  revert i index. induction rest as [|r rest IH]; intros i index; simpl.
  - left. split; [done|]. intros k (r & Hk & _). done.
  - destruct (IH (i + 1)%Z (if bool_decide (ID r = id) then i else index))
      as [[Heq Hno] | (k & Heq & Hk & Hlast)].
    + rewrite Heq. case_bool_decide as Hid.
      * right. exists 0. split; [f_equal; lia|]. split.
        { by apply matches_at_cons_0. }
        intros [|j] Hj; [lia|]. apply matches_at_cons_S in Hj.
        by destruct (Hno j).
      * left. split; [done|]. intros [|k] Hk.
        { by apply matches_at_cons_0 in Hk. }
        apply matches_at_cons_S in Hk. by destruct (Hno k).
    + right. exists (S k). split; [lia|]. split.
      * by apply matches_at_cons_S.
      * intros [|j] Hj; [lia|]. apply matches_at_cons_S in Hj.
        apply Hlast in Hj. lia.
Qed.

Lemma find_index_not_found id recipes :
  Forall (λ r, ID r ≠ id) recipes → find_index id recipes = (-1)%Z.
Proof.
  intros H. pose proof (proj2 (no_match_Forall id recipes) H) as Hno.
  unfold find_index.
  destruct (scan_spec id recipes 0 (-1)) as [[Heq _] | (k & _ & Hk & _)];
    [done|]. by destruct (Hno k).
Qed.

Lemma find_index_found id recipes :
  (∃ r, r ∈ recipes ∧ ID r = id) →
  ∃ k, find_index id recipes = Z.of_nat k ∧ last_match id recipes k.
Proof.
  intros [k0 Hk0]%matches_at_elem_of. unfold find_index.
  destruct (scan_spec id recipes 0 (-1)) as [[_ Hno] | (k & Heq & Hk)].
  - by destruct (Hno k0).
  - exists k. split; [lia | done].
Qed.

Lemma matches_at_lt id recipes k :
  matches_at id recipes k → k < length recipes.
Proof. intros (r & Hk & _). by eapply lookup_lt_Some. Qed.

Lemma count_id_pos id recipes :
  0 < count_id id recipes → ∃ r, r ∈ recipes ∧ ID r = id.
Proof.
  unfold count_id. intros H.
  destruct (filter (λ r, ID r = id) recipes) as [|r l] eqn:E; simpl in H; [lia|].
  assert (r ∈ filter (λ r, ID r = id) recipes) as Hr by (rewrite E; left).
  apply list_elem_of_filter in Hr as [Hid Hr]. by exists r.
Qed.

Lemma count_id_cons id r rest :
  count_id id (r :: rest) =
  if bool_decide (ID r = id) then S (count_id id rest) else count_id id rest.
Proof.
  unfold count_id. rewrite filter_cons.
  destruct (decide (ID r = id)) as [H|H].
  - by rewrite bool_decide_eq_true_2.
  - by rewrite bool_decide_eq_false_2.
Qed.

(** More than one element with the id: two positions hold one. *)
Lemma count_id_two id recipes :
  1 < count_id id recipes →
  ∃ j k, j < k ∧ matches_at id recipes j ∧ matches_at id recipes k.
Proof.
  induction recipes as [|r rest IH]; [unfold count_id; simpl; lia|].
  rewrite count_id_cons. case_bool_decide as Hid; intros H.
  - assert (0 < count_id id rest) as Hpos by lia.
    apply count_id_pos, matches_at_elem_of in Hpos as [k Hk].
    exists 0, (S k). split; [lia|]. split.
    + by apply matches_at_cons_0.
    + by apply matches_at_cons_S.
  - destruct (IH H) as (j & k & Hjk & Hj & Hk).
    exists (S j), (S k). split; [lia|]. by rewrite !matches_at_cons_S.
Qed.

Lemma first_match_exists id recipes :
  (∃ k, matches_at id recipes k) → ∃ f, first_match id recipes f.
Proof.
  induction recipes as [|r rest IH]; intros [k Hk].
  - destruct Hk as (r & Hr & _). done.
  - destruct (decide (ID r = id)) as [Hid|Hid].
    + exists 0. split; [by apply matches_at_cons_0 | lia].
    + destruct k as [|k]; [by apply matches_at_cons_0 in Hk|].
      apply matches_at_cons_S in Hk.
      destruct IH as (f & Hf & Hmin); [by exists k|].
      exists (S f). split; [by apply matches_at_cons_S|].
      intros [|j] Hj; [by apply matches_at_cons_0 in Hj|].
      apply matches_at_cons_S, Hmin in Hj. lia.
Qed.

(** ** What the handlers do once the scan has answered *)

Lemma set_index_in_range {A} (a : list A) (k : nat) (v : A) :
  k < length a → set_index a (Z.of_nat k) v = Some (<[k := v]> a).
Proof.
  intros H. unfold set_index. rewrite bool_decide_eq_true_2 by lia.
  by rewrite Nat2Z.id.
Qed.

Lemma slice_front {A} (a : list A) (k : nat) :
  k < length a → slice a 0 (Z.of_nat k) = Some (take k a).
Proof.
  intros H. unfold slice. rewrite bool_decide_eq_true_2 by lia.
  rewrite Z.sub_0_r, Nat2Z.id. done.
Qed.

Lemma slice_back {A} (a : list A) (k : nat) :
  k < length a → slice a (Z.of_nat k + 1) (len a) = Some (drop (S k) a).
Proof.
  intros H. unfold slice, len. rewrite bool_decide_eq_true_2 by lia.
  replace (Z.to_nat (Z.of_nat k + 1)) with (S k) by lia.
  rewrite take_ge; [done|]. rewrite length_drop. lia.
Qed.

Lemma Update_at id recipe recipes k :
  find_index id recipes = Z.of_nat k → k < length recipes →
  UpdateRecipeHandler id (Bound recipe) recipes
  = Some (mkResponse StatusOK (JSONRecipe recipe), <[k := recipe]> recipes).
Proof.
  intros Hix Hk. unfold UpdateRecipeHandler. rewrite Hix.
  rewrite bool_decide_eq_false_2 by lia.
  by rewrite set_index_in_range.
Qed.

Lemma Delete_at id recipes k :
  find_index id recipes = Z.of_nat k → k < length recipes →
  DeleteRecipeHandler id recipes
  = Some (mkResponse StatusOK (JSONMessage "Recipe has been deleted"),
          take k recipes ++ drop (S k) recipes).
Proof.
  intros Hix Hk. unfold DeleteRecipeHandler. rewrite Hix.
  rewrite bool_decide_eq_false_2 by lia.
  rewrite slice_front, slice_back by done. done.
Qed.

(** ** Update *)

(** C1: in a collection where more than one element has the given id,
    update selects the last matching element in iteration order as the one
    to replace: the scan ends on the last matching position, and the
    payload is written there. *)
Theorem update_selects_last_match id payload recipes :
  1 < count_id id recipes →
  ∃ k, last_match id recipes k
    ∧ find_index id recipes = Z.of_nat k
    ∧ UpdateRecipeHandler id (Bound payload) recipes
      = Some (mkResponse StatusOK (JSONRecipe payload), <[k := payload]> recipes).
Proof.
  intros H. assert (0 < count_id id recipes) as Hpos by lia.
  apply count_id_pos, find_index_found in Hpos as (k & Hix & Hlast).
  exists k. split; [done|]. split; [done|].
  apply Update_at; [done|]. eapply matches_at_lt, Hlast.
Qed.

Lemma update_selects_last_match_witness :
  1 < count_id "B" [R1; D1; D2]
  ∧ ∃ k, last_match "B" [R1; D1; D2] k
      ∧ find_index "B" [R1; D1; D2] = Z.of_nat k
      ∧ UpdateRecipeHandler "B" (Bound R3) [R1; D1; D2]
        = Some (mkResponse StatusOK (JSONRecipe R3), <[k := R3]> [R1; D1; D2]).
Proof.
  split; [vm_compute; lia|].
  apply (update_selects_last_match "B" R3 [R1; D1; D2]). vm_compute; lia.
Defined.

(** C2: when the collection holds an element with the given id, update
    selects a position that holds an element with that id (the last such
    position), overwrites the whole record there with the payload as the
    caller supplied it, its [id] and [publishedAt] included, leaves the
    other positions, and answers with a record equal to the payload. *)
Theorem update_overwrites_with_payload id payload recipes :
  (∃ r, r ∈ recipes ∧ ID r = id) →
  ∃ k recipes',
    last_match id recipes k
    ∧ find_index id recipes = Z.of_nat k
    ∧ UpdateRecipeHandler id (Bound payload) recipes
      = Some (mkResponse StatusOK (JSONRecipe payload), recipes')
    ∧ recipes' = <[k := payload]> recipes
    ∧ recipes' !! k = Some payload
    ∧ ID <$> recipes' !! k = Some (ID payload)
    ∧ PublishedAt <$> recipes' !! k = Some (PublishedAt payload).
Proof.
  intros (k & Hix & Hlast)%find_index_found.
  assert (k < length recipes) as Hk by (eapply matches_at_lt, Hlast).
  exists k, (<[k := payload]> recipes). split; [done|]. split; [done|].
  split; [by apply Update_at|]. split; [done|].
  rewrite list_lookup_insert_eq by done. done.
Qed.

Lemma update_overwrites_with_payload_witness :
  (∃ r, r ∈ [R1; R2; R3] ∧ ID r = "B")
  ∧ ∃ k recipes',
      last_match "B" [R1; R2; R3] k
      ∧ find_index "B" [R1; R2; R3] = Z.of_nat k
      ∧ UpdateRecipeHandler "B" (Bound D1) [R1; R2; R3]
        = Some (mkResponse StatusOK (JSONRecipe D1), recipes')
      ∧ recipes' = <[k := D1]> [R1; R2; R3]
      ∧ recipes' !! k = Some D1
      ∧ ID <$> recipes' !! k = Some (ID D1)
      ∧ PublishedAt <$> recipes' !! k = Some (PublishedAt D1).
Proof.
  assert (∃ r, r ∈ [R1; R2; R3] ∧ ID r = "B") as H.
  { exists R2. split; [|reflexivity]. right. left. }
  split; [exact H|].
  exact (update_overwrites_with_payload "B" D1 [R1; R2; R3] H).
Defined.

(** C10: a successful update leaves every element at a position other than
    the selected one as it was, and the length of the collection too. *)
Theorem update_frame id payload recipes :
  (∃ r, r ∈ recipes ∧ ID r = id) →
  ∃ k recipes',
    find_index id recipes = Z.of_nat k
    ∧ UpdateRecipeHandler id (Bound payload) recipes
      = Some (mkResponse StatusOK (JSONRecipe payload), recipes')
    ∧ length recipes' = length recipes
    ∧ ∀ j, j ≠ k → recipes' !! j = recipes !! j.
Proof.
  intros (k & Hix & Hlast)%find_index_found.
  assert (k < length recipes) as Hk by (eapply matches_at_lt, Hlast).
  exists k, (<[k := payload]> recipes). split; [done|].
  split; [by apply Update_at|]. split; [apply length_insert|].
  intros j Hj. by apply list_lookup_insert_ne.
Qed.

Lemma update_frame_witness :
  (∃ r, r ∈ [R1; R2; R3] ∧ ID r = "B")
  ∧ ∃ k recipes',
      find_index "B" [R1; R2; R3] = Z.of_nat k
      ∧ UpdateRecipeHandler "B" (Bound D1) [R1; R2; R3]
        = Some (mkResponse StatusOK (JSONRecipe D1), recipes')
      ∧ length recipes' = length [R1; R2; R3]
      ∧ ∀ j, j ≠ k → recipes' !! j = [R1; R2; R3] !! j.
Proof.
  assert (∃ r, r ∈ [R1; R2; R3] ∧ ID r = "B") as H.
  { exists R2. split; [|reflexivity]. right. left. }
  split; [exact H|].
  exact (update_frame "B" D1 [R1; R2; R3] H).
Defined.

(** ** Not found *)

(** C3: for an id that matches no element, update and delete each answer
    NotFound and leave the collection as it was. *)
Theorem not_found_leaves_collection id payload recipes :
  Forall (λ r, ID r ≠ id) recipes →
  UpdateRecipeHandler id (Bound payload) recipes
  = Some (mkResponse StatusNotFound (JSONError "Recipe not found"), recipes)
  ∧ DeleteRecipeHandler id recipes
    = Some (mkResponse StatusNotFound (JSONError "Recipe not found"), recipes).
Proof.
  intros H%find_index_not_found.
  unfold UpdateRecipeHandler, DeleteRecipeHandler. rewrite H. done.
Qed.

Lemma not_found_leaves_collection_witness :
  Forall (λ r, ID r ≠ "nonexistent") [R1; R2; R3]
  ∧ UpdateRecipeHandler "nonexistent" (Bound D1) [R1; R2; R3]
    = Some (mkResponse StatusNotFound (JSONError "Recipe not found"), [R1; R2; R3])
  ∧ DeleteRecipeHandler "nonexistent" [R1; R2; R3]
    = Some (mkResponse StatusNotFound (JSONError "Recipe not found"), [R1; R2; R3]).
Proof.
  assert (Forall (λ r, ID r ≠ "nonexistent") [R1; R2; R3]) as H.
  { repeat constructor; discriminate. }
  split; [exact H|].
  exact (not_found_leaves_collection "nonexistent" D1 [R1; R2; R3] H).
Defined.

(** ** Delete *)

(** C4: when the collection holds an element with the given id, delete
    removes exactly one element, the last matching one in iteration order;
    the elements after it move down by one position and the order of the
    remaining elements is kept. *)
Theorem delete_removes_last_match id recipes :
  (∃ r, r ∈ recipes ∧ ID r = id) →
  ∃ k recipes',
    last_match id recipes k
    ∧ DeleteRecipeHandler id recipes
      = Some (mkResponse StatusOK (JSONMessage "Recipe has been deleted"), recipes')
    ∧ recipes' = delete k recipes
    ∧ S (length recipes') = length recipes
    ∧ (∀ j, j < k → recipes' !! j = recipes !! j)
    ∧ (∀ j, k ≤ j → recipes' !! j = recipes !! S j).
Proof.
  intros (k & Hix & Hlast)%find_index_found.
  assert (k < length recipes) as Hk by (eapply matches_at_lt, Hlast).
  exists k, (delete k recipes). split; [done|].
  split; [rewrite delete_take_drop; by apply Delete_at|].
  split; [done|]. split; [rewrite length_delete; [lia|]|].
  - by apply lookup_lt_is_Some_2.
  - split; intros j Hj.
    + by apply list_lookup_delete_lt.
    + by apply list_lookup_delete_ge.
Qed.

Lemma delete_removes_last_match_witness :
  (∃ r, r ∈ [R1; R2; R3] ∧ ID r = "B")
  ∧ ∃ k recipes',
      last_match "B" [R1; R2; R3] k
      ∧ DeleteRecipeHandler "B" [R1; R2; R3]
        = Some (mkResponse StatusOK (JSONMessage "Recipe has been deleted"), recipes')
      ∧ recipes' = delete k [R1; R2; R3]
      ∧ S (length recipes') = length [R1; R2; R3]
      ∧ (∀ j, j < k → recipes' !! j = [R1; R2; R3] !! j)
      ∧ (∀ j, k ≤ j → recipes' !! j = [R1; R2; R3] !! S j).
Proof.
  assert (∃ r, r ∈ [R1; R2; R3] ∧ ID r = "B") as H.
  { exists R2. split; [|reflexivity]. right. left. }
  split; [exact H|].
  exact (delete_removes_last_match "B" [R1; R2; R3] H).
Defined.

(** The example of the specification: deleting "B" from [R1; R2; R3]. *)
Example delete_B :
  DeleteRecipeHandler "B" [R1; R2; R3]
  = Some (mkResponse StatusOK (JSONMessage "Recipe has been deleted"), [R1; R3]).
Proof. reflexivity. Qed.

(** ** Duplicate ids: which match is authoritative *)

(** Two elements share the id "B".  The first match is at position 0, yet
    the scan answers 1: update overwrites the second element and keeps the
    first, delete removes the second and keeps the first. *)
Lemma first_match_not_selected :
  first_match "B" [D1; D2] 0
  ∧ find_index "B" [D1; D2] = 1%Z
  ∧ UpdateRecipeHandler "B" (Bound R3) [D1; D2]
    = Some (mkResponse StatusOK (JSONRecipe R3), [D1; R3])
  ∧ DeleteRecipeHandler "B" [D1; D2]
    = Some (mkResponse StatusOK (JSONMessage "Recipe has been deleted"), [D1]).
Proof.
  split; [|by repeat split].
  split; [by exists D1 | lia].
Qed.

(** C8, as the code has it: in a collection where more than one element has
    the given id, the id scans of update and delete settle on the last
    match, which lies after the first one; that element is overwritten,
    respectively removed. *)
Theorem scans_select_last_match id payload recipes :
  1 < count_id id recipes →
  ∃ f k,
    first_match id recipes f ∧ last_match id recipes k ∧ f < k
    ∧ find_index id recipes = Z.of_nat k
    ∧ UpdateRecipeHandler id (Bound payload) recipes
      = Some (mkResponse StatusOK (JSONRecipe payload), <[k := payload]> recipes)
    ∧ DeleteRecipeHandler id recipes
      = Some (mkResponse StatusOK (JSONMessage "Recipe has been deleted"),
              delete k recipes).
Proof.
  intros (a & b & Hab & Ha & Hb)%count_id_two.
  destruct (first_match_exists id recipes) as (f & Hf & Hmin); [by exists a|].
  destruct (find_index_found id recipes) as (k & Hix & Hk & Hmax).
  { apply matches_at_elem_of. by exists a. }
  assert (k < length recipes) as Hlt by by eapply matches_at_lt.
  exists f, k. split; [done|]. split; [done|].
  split; [apply Hmin in Ha; apply Hmax in Hb; lia|].
  split; [done|]. split; [by apply Update_at|].
  rewrite delete_take_drop. by apply Delete_at.
Qed.

Lemma scans_select_last_match_witness :
  1 < count_id "B" [D1; R1; D2]
  ∧ ∃ f k,
      first_match "B" [D1; R1; D2] f ∧ last_match "B" [D1; R1; D2] k ∧ f < k
      ∧ find_index "B" [D1; R1; D2] = Z.of_nat k
      ∧ UpdateRecipeHandler "B" (Bound R3) [D1; R1; D2]
        = Some (mkResponse StatusOK (JSONRecipe R3), <[k := R3]> [D1; R1; D2])
      ∧ DeleteRecipeHandler "B" [D1; R1; D2]
        = Some (mkResponse StatusOK (JSONMessage "Recipe has been deleted"),
                delete k [D1; R1; D2]).
Proof.
  split; [vm_compute; lia|].
  apply (scans_select_last_match "B" R3 [D1; R1; D2]). vm_compute; lia.
Defined.

(** ** Create *)

(** C6: for every payload, create stores the payload's name, tags,
    ingredients and instructions under the identifier just generated and
    the current time, whatever [id] and [publishedAt] the payload carried;
    the stored record goes to the end of the collection and is the answer,
    with status OK. *)
Theorem create_appends_stamped_record
    (xid_New : string) (now : Time) (recipes : list Recipe)
    (id : string) (name : string) (tags ingredients instructions : list string)
    (publishedAt : Time) :
  let payload := mkRecipe id name tags ingredients instructions publishedAt in
  let stored := mkRecipe xid_New name tags ingredients instructions now in
  NewRecipeHandler xid_New now (Bound payload) recipes
  = (mkResponse StatusOK (JSONRecipe stored), recipes ++ [stored])
  ∧ ID stored = xid_New
  ∧ PublishedAt stored = now
  ∧ last (recipes ++ [stored]) = Some stored
  ∧ take (length recipes) (recipes ++ [stored]) = recipes
  ∧ length (recipes ++ [stored]) = S (length recipes).
Proof.
  simpl. split; [done|]. split; [done|]. split; [done|].
  split; [apply last_snoc|]. split; [by rewrite take_app_length|].
  rewrite length_app. simpl. lia.
Qed.

(** ** Tag search *)

Section SearchFacts.
Variable hasUnicode : string → string → bool.

Lemma tag_loop_true tag tags :
  tag_loop hasUnicode tag tags true = true.
Proof.
  induction tags as [|t tags IH]; simpl; [done|].
  by destruct (GoStrings.EqualFold hasUnicode t tag).
Qed.

(** The flag [found] ends up set exactly when some tag matched. *)
Lemma tag_loop_false tag tags :
  tag_loop hasUnicode tag tags false = true
  ↔ Exists (λ t, GoStrings.EqualFold hasUnicode t tag = true) tags.
Proof.
  induction tags as [|t tags IH]; simpl.
  - split; [done | by intros ?%Exists_nil].
  - rewrite Exists_cons.
    destruct (GoStrings.EqualFold hasUnicode t tag) eqn:E.
    + rewrite tag_loop_true. split; [by left | done].
    + rewrite IH. split; [by right | by intros [?|?]].
Qed.

(** The outer loop appends, in order, the recipes with a matching tag. *)
Lemma search_loop_filter tag rest listOfRecipes :
  search_loop hasUnicode tag rest listOfRecipes
  = listOfRecipes ++ filter (has_tag hasUnicode tag) rest.
Proof.
  revert listOfRecipes.
  induction rest as [|r rest IH]; intros acc; simpl.
  - by rewrite filter_nil, app_nil_r.
  - rewrite IH, filter_cons.
    destruct (decide (has_tag hasUnicode tag r)) as [H|H].
    + apply tag_loop_false in H. rewrite H. by rewrite <- app_assoc.
    + destruct (tag_loop hasUnicode tag (Tags r) false) eqn:E; [|done].
      apply tag_loop_false in E. done.
Qed.

Lemma occurrences_filter (P : Recipe → Prop) `{!∀ x, Decision (P x)} r l :
  occurrences r (filter P l) ≤ occurrences r l.
Proof.
  unfold occurrences. induction l as [|x l IH]; [done|].
  rewrite (filter_cons P). destruct (decide (P x)).
  - rewrite !(filter_cons (λ y, y = r)).
    destruct (decide (x = r)); simpl; lia.
  - rewrite (filter_cons (λ y, y = r)).
    destruct (decide (x = r)); simpl; lia.
Qed.

(** Against the empty tag string [EqualFold] compares lengths only. *)
Lemma EqualFold_empty t :
  GoStrings.EqualFold hasUnicode t "" = true ↔ t = "".
Proof. destruct t; simpl; [done|]. split; discriminate. Qed.

Lemma has_tag_empty r : has_tag hasUnicode "" r ↔ "" ∈ Tags r.
Proof.
  unfold has_tag. rewrite Exists_exists. split.
  - intros (t & Ht & ->%EqualFold_empty). done.
  - intros H. exists "". split; [done|]. by apply EqualFold_empty.
Qed.

(** The handler answers the filtered collection and leaves [recipes]. *)
Lemma SearchRecipesHandler_filter q recipes :
  SearchRecipesHandler hasUnicode q recipes
  = (mkResponse StatusOK
       (JSONRecipes (filter (has_tag hasUnicode (Query q)) recipes)),
     recipes).
Proof. unfold SearchRecipesHandler. by rewrite search_loop_filter. Qed.

End SearchFacts.

(** C9: each recipe of the collection comes at most once into the answer
    of a search, however many of its tags match: the answer is the
    collection with some elements left out, and no recipe occurs in it
    more often than in the collection. *)
Theorem search_lists_each_recipe_once
    (hasUnicode : string → string → bool) (q : option string)
    (recipes : list Recipe) :
  ∃ listOfRecipes,
    SearchRecipesHandler hasUnicode q recipes
    = (mkResponse StatusOK (JSONRecipes listOfRecipes), recipes)
    ∧ listOfRecipes `sublist_of` recipes
    ∧ ∀ r, occurrences r listOfRecipes ≤ occurrences r recipes.
Proof.
  exists (filter (has_tag hasUnicode (Query q)) recipes).
  split; [apply SearchRecipesHandler_filter|].
  split; [apply sublist_filter|].
  intros r. apply occurrences_filter.
Qed.

(** With an empty tag and with no tag, the search finds the recipe that has
    a blank tag, whatever the rune-wise loop of [EqualFold] does. *)
Lemma search_empty_tag_finds_blank :
  (∀ hasUnicode, SearchRecipesHandler hasUnicode (Some "") [R1; Blank]
     = (mkResponse StatusOK (JSONRecipes [Blank]), [R1; Blank]))
  ∧ (∀ hasUnicode, SearchRecipesHandler hasUnicode None [R1; Blank]
     = (mkResponse StatusOK (JSONRecipes [Blank]), [R1; Blank])).
Proof. split; reflexivity. Qed.

(** C7, as the code has it: an empty or absent tag is not treated apart;
    the search answers the recipes that have the empty string among their
    tags, and so the empty result set exactly when no recipe has one. *)
Theorem search_empty_tag
    (hasUnicode : string → string → bool) (q : option string)
    (recipes : list Recipe) :
  Query q = "" →
  SearchRecipesHandler hasUnicode q recipes
  = (mkResponse StatusOK
       (JSONRecipes (filter (λ r, "" ∈ Tags r) recipes)), recipes)
  ∧ (filter (λ r, "" ∈ Tags r) recipes = []
     ↔ Forall (λ r, "" ∉ Tags r) recipes).
Proof.
  intros Hq. split.
  - rewrite SearchRecipesHandler_filter, Hq.
    f_equal. f_equal. f_equal.
    apply list_filter_iff. intros r. apply has_tag_empty.
  - rewrite Forall_forall. split.
    + intros H r Hr Hin.
      by apply (filter_nil_not_elem_of (λ r, "" ∈ Tags r) recipes r).
    + intros H. induction recipes as [|r rest IH]; [done|].
      assert ("" ∉ Tags r) as Hr by (apply H; left).
      rewrite filter_cons_False by done.
      apply IH. intros r' Hr'. apply H. by right.
Qed.

Lemma search_empty_tag_witness :
  Query None = ""
  ∧ ∀ hasUnicode,
      SearchRecipesHandler hasUnicode None [R1; Blank]
      = (mkResponse StatusOK
           (JSONRecipes (filter (λ r, "" ∈ Tags r) [R1; Blank])), [R1; Blank])
      ∧ (filter (λ r, "" ∈ Tags r) [R1; Blank] = []
         ↔ Forall (λ r, "" ∉ Tags r) [R1; Blank]).
Proof.
  split; [reflexivity|]. intros hasUnicode.
  apply (search_empty_tag hasUnicode None [R1; Blank]). reflexivity.
Defined.

(** The examples of the specification, and a recipe with three matching
    tags that is listed once. *)
Example search_italian hasUnicode :
  SearchRecipesHandler hasUnicode (Some "italian") [R1; R2]
  = (mkResponse StatusOK (JSONRecipes [R1]), [R1; R2]).
Proof. reflexivity. Qed.

Example search_MEXICAN hasUnicode :
  SearchRecipesHandler hasUnicode (Some "MEXICAN") [R1; R2]
  = (mkResponse StatusOK (JSONRecipes [R2]), [R1; R2]).
Proof. reflexivity. Qed.

Example search_dessert hasUnicode :
  SearchRecipesHandler hasUnicode (Some "dessert") [R1; R2]
  = (mkResponse StatusOK (JSONRecipes []), [R1; R2]).
Proof. reflexivity. Qed.

Example search_quick hasUnicode :
  SearchRecipesHandler hasUnicode (Some "quick") [R1; Q3; R2]
  = (mkResponse StatusOK (JSONRecipes [R1; Q3]), [R1; Q3; R2]).
Proof. reflexivity. Qed.

(** ** [EqualFold] on ASCII text

    On strings of ASCII bytes the fast path decides alone, and it holds
    two strings equal exactly when their lower-case forms are the same. *)

Section FoldASCII.
Import GoStrings.
Variable hasUnicode : string → string → bool.

Lemma byte_range c : (0 ≤ byte c < 256)%Z.
Proof. unfold byte. pose proof (N_ascii_bounded c). lia. Qed.

Lemma byte_inj a b : byte a = byte b → a = b.
Proof.
  unfold byte. intros H%N2Z.inj.
  rewrite <- (ascii_N_embedding a), <- (ascii_N_embedding b). by rewrite H.
Qed.

Lemma byte_lower c :
  byte (lower c)
  = if (65 <=? byte c)%Z && (byte c <=? 90)%Z then (byte c + 32)%Z else byte c.
Proof.
  unfold lower. pose proof (byte_range c).
  destruct ((65 <=? byte c)%Z && (byte c <=? 90)%Z) eqn:E; [|done].
  apply andb_true_iff in E as [?%Z.leb_le ?%Z.leb_le].
  unfold byte at 1. rewrite N_ascii_embedding by lia. lia.
Qed.

Lemma below_pow2_log2 a : (0 ≤ a)%Z → (a < 128 ↔ Z.log2 a < 7)%Z.
Proof.
  intros Ha. destruct (decide (a = 0%Z)) as [->|Hne]; [done|].
  change 128%Z with (2 ^ 7)%Z. apply Z.log2_lt_pow2. lia.
Qed.

Lemma lor_below a b :
  (0 ≤ a)%Z → (0 ≤ b)%Z →
  (Z.lor a b < RuneSelf ↔ a < RuneSelf ∧ b < RuneSelf)%Z.
Proof.
  intros Ha Hb. unfold RuneSelf.
  assert (0 ≤ Z.lor a b)%Z as Hab by by apply Z.lor_nonneg.
  rewrite !below_pow2_log2 by done. rewrite Z.log2_lor by done. lia.
Qed.

Lemma EqualFold_ASCII s t :
  isASCII s = true → isASCII t = true →
  EqualFold hasUnicode s t = true ↔ ToLower s = ToLower t.
Proof.
  revert t. induction s as [|a s IH]; intros [|b t]; simpl; try done.
  intros [Ha%Z.ltb_lt Hs]%andb_true_iff [Hb%Z.ltb_lt Ht]%andb_true_iff.
  pose proof (byte_range a) as Ra. pose proof (byte_range b) as Rb.
  assert (Z.lor (byte a) (byte b) < RuneSelf)%Z as Hlor
    by (apply lor_below; lia).
  destruct (Z.leb_spec RuneSelf (Z.lor (byte a) (byte b))) as [?|_]; [lia|].
  assert (lower a = lower b ↔ byte (lower a) = byte (lower b)) as Hlow
    by (split; [by intros -> | apply byte_inj]).
  rewrite !byte_lower in Hlow.
  assert (String (lower a) (ToLower s) = String (lower b) (ToLower t)
          ↔ lower a = lower b ∧ ToLower s = ToLower t) as ->
    by (split; [by intros [= -> ->] | by intros [-> ->]]).
  rewrite Hlow, <- (IH t Hs Ht). clear Hlow IH.
  assert (∀ x, (0 ≤ x < RuneSelf)%Z → u8 (u8 (x + 97) - 65) = (x + 32)%Z) as Hu8.
  { intros x Hx. unfold u8, RuneSelf in *.
    rewrite (Z.mod_small (x + 97)) by lia. rewrite Z.mod_small by lia. lia. }
  clear Hlor. unfold RuneSelf in *.
  destruct (Z.eqb_spec (byte b) (byte a)) as [->|Hne]; [tauto|].
  destruct (Z.ltb_spec (byte b) (byte a)); cbv beta iota;
    rewrite Hu8 by lia; clear Hu8.
  - destruct (Z.leb_spec 65 (byte b)), (Z.leb_spec (byte b) 90),
      (Z.leb_spec 65 (byte a)), (Z.leb_spec (byte a) 90),
      (Z.eqb_spec (byte a) (byte b + 32));
      simpl; split; intros Hyp;
      first [ discriminate Hyp
            | split; [lia | exact Hyp]
            | exact (proj2 Hyp)
            | exfalso; lia ].
  - destruct (Z.leb_spec 65 (byte a)), (Z.leb_spec (byte a) 90),
      (Z.leb_spec 65 (byte b)), (Z.leb_spec (byte b) 90),
      (Z.eqb_spec (byte b) (byte a + 32));
      simpl; split; intros Hyp;
      first [ discriminate Hyp
            | split; [lia | exact Hyp]
            | exact (proj2 Hyp)
            | exfalso; lia ].
Qed.

(** So on ASCII tags the search criterion is equality of lower-case
    forms. *)
Lemma has_tag_ASCII tag r :
  isASCII tag = true → Forall (λ t, isASCII t = true) (Tags r) →
  has_tag hasUnicode tag r ↔ ∃ t, t ∈ Tags r ∧ ToLower t = ToLower tag.
Proof.
  intros Htag Htags. unfold has_tag. rewrite Exists_exists.
  rewrite Forall_forall in Htags.
  split; intros (t & Ht & H); exists t; (split; [done|]);
    by apply EqualFold_ASCII; auto.
Qed.

End FoldASCII.

(** ** [EqualFold] and equality under case folding *)

Section FoldContract.
Import GoStrings.
Variable runes : string → list Z.
Variable fold : Z → Z.
Variable hasUnicode : string → string → bool.
Hypothesis contract : unicode_contract runes fold hasUnicode.

Lemma fold_equal_cons a s b t :
  (byte a < RuneSelf)%Z → (byte b < RuneSelf)%Z →
  fold_equal runes fold (String a s) (String b t)
  ↔ lower a = lower b ∧ fold_equal runes fold s t.
Proof.
  intros Ha Hb. unfold fold_equal.
  rewrite !(runes_ascii _ _ _ contract) by done. rewrite !fmap_cons.
  rewrite <- (fold_ascii _ _ _ contract a b) by done.
  split; [by intros [= -> ->] | by intros [-> ->]].
Qed.

(** The fast path and the rune-wise loop together decide equality under
    case folding. *)
Lemma EqualFold_fold_equal s t :
  EqualFold hasUnicode s t = true ↔ fold_equal runes fold s t.
Proof.
  revert t. induction s as [|a s IH]; intros [|b t].
  - done.
  - simpl. split; [done|]. unfold fold_equal.
    rewrite (runes_empty _ _ _ contract). intros H. symmetry in H.
    apply fmap_nil_inv in H. by destruct (runes_nonempty _ _ _ contract b t).
  - simpl. split; [done|]. unfold fold_equal.
    rewrite (runes_empty _ _ _ contract). intros H.
    apply fmap_nil_inv in H. by destruct (runes_nonempty _ _ _ contract a s).
  - pose proof (byte_range a) as Ra. pose proof (byte_range b) as Rb.
    cbn [EqualFold]. cbv zeta.
    destruct (Z.leb_spec RuneSelf (Z.lor (byte a) (byte b))) as [Hge|Hlt].
    { apply (hasUnicode_spec _ _ _ contract). }
    apply lor_below in Hlt as [Ha Hb]; [|lia|lia].
    rewrite fold_equal_cons, <- IH by done. clear IH.
    assert (lower a = lower b ↔ byte (lower a) = byte (lower b)) as ->
      by (split; [by intros -> | apply byte_inj]).
    rewrite !byte_lower.
    assert (∀ x, (0 ≤ x < RuneSelf)%Z → u8 (u8 (x + 97) - 65) = (x + 32)%Z)
      as Hu8.
    { intros x Hx. unfold u8, RuneSelf in *.
      rewrite (Z.mod_small (x + 97)) by lia. rewrite Z.mod_small by lia. lia. }
    unfold RuneSelf in *.
    destruct (Z.eqb_spec (byte b) (byte a)) as [->|Hne]; [tauto|].
    destruct (Z.ltb_spec (byte b) (byte a)); cbv beta iota;
      rewrite Hu8 by lia; clear Hu8.
    + destruct (Z.leb_spec 65 (byte b)), (Z.leb_spec (byte b) 90),
        (Z.leb_spec 65 (byte a)), (Z.leb_spec (byte a) 90),
        (Z.eqb_spec (byte a) (byte b + 32));
        simpl; split; intros Hyp;
        first [ discriminate Hyp
              | split; [lia | exact Hyp]
              | exact (proj2 Hyp)
              | exfalso; lia ].
    + destruct (Z.leb_spec 65 (byte a)), (Z.leb_spec (byte a) 90),
        (Z.leb_spec 65 (byte b)), (Z.leb_spec (byte b) 90),
        (Z.eqb_spec (byte b) (byte a + 32));
        simpl; split; intros Hyp;
        first [ discriminate Hyp
              | split; [lia | exact Hyp]
              | exact (proj2 Hyp)
              | exfalso; lia ].
Qed.

Lemma has_tag_tagged_fold tag r :
  has_tag hasUnicode tag r ↔ tagged_fold runes fold tag r.
Proof.
  unfold has_tag, tagged_fold. rewrite !Exists_exists.
  split; intros (t & Ht & H); exists t; (split; [done|]);
    by apply EqualFold_fold_equal.
Qed.

End FoldContract.

Lemma filter_ext_in (P Q : Recipe → Prop)
    `{!∀ x, Decision (P x)} `{!∀ x, Decision (Q x)} (l : list Recipe) :
  (∀ r, r ∈ l → P r ↔ Q r) → filter P l = filter Q l.
Proof.
  induction l as [|x l IH]; intros Hext; [done|].
  rewrite !filter_cons, IH by (intros r Hr; apply Hext; by right).
  assert (P x ↔ Q x) as Hx by (apply Hext; left).
  destruct (decide (P x)), (decide (Q x)); tauto.
Qed.

(** The contract holds of the one-byte instance. *)
Lemma byte_contract : unicode_contract byte_runes letter_fold byte_fold_loop.
Proof.
  split.
  - done.
  - done.
  - done.
  - intros a b _ _.
    assert (∀ c, letter_fold (GoStrings.byte c) = GoStrings.byte (GoStrings.lower c))
      as Hfold by (intros c; by rewrite byte_lower).
    rewrite !Hfold. split; [apply byte_inj | by intros ->].
  - intros s t. unfold byte_fold_loop. apply bool_decide_eq_true.
Qed.

(** C5: for every collection and every tag string, the search answers, in
    the order of the collection, exactly the recipes that have at least one
    tag equal to the tag string under case folding; for a collection and a
    tag string of ASCII text these are the recipes with a tag that has the
    lower-case form of the tag string.  The first part rests on the
    library's contract for the code points outside ASCII. *)
Theorem search_returns_matching_in_order
    (runes : string → list Z) (fold : Z → Z)
    (hasUnicode : string → string → bool)
    (tag : string) (recipes : list Recipe) :
  unicode_contract runes fold hasUnicode →
  SearchRecipesHandler hasUnicode (Some tag) recipes
  = (mkResponse StatusOK
       (JSONRecipes (filter (tagged_fold runes fold tag) recipes)), recipes)
  ∧ (GoStrings.isASCII tag = true → ascii_tags recipes →
     SearchRecipesHandler hasUnicode (Some tag) recipes
     = (mkResponse StatusOK
          (JSONRecipes (filter (tagged_lower tag) recipes)), recipes)).
Proof.
  intros contract. unfold SearchRecipesHandler.
  rewrite (search_loop_filter hasUnicode (Query (Some tag)) recipes []).
  cbn [Query app]. split.
  - f_equal. f_equal. f_equal. apply filter_ext_in. intros r _.
    by apply has_tag_tagged_fold.
  - intros Htag Hrs. f_equal. f_equal. f_equal.
    apply filter_ext_in. intros r Hr. unfold tagged_lower.
    rewrite Exists_exists. apply has_tag_ASCII; [done|].
    unfold ascii_tags in Hrs. rewrite Forall_forall in Hrs. by apply Hrs.
Qed.

Lemma search_returns_matching_in_order_witness :
  unicode_contract byte_runes letter_fold byte_fold_loop
  ∧ SearchRecipesHandler byte_fold_loop (Some "italian") [R1; R2; Q3]
    = (mkResponse StatusOK
         (JSONRecipes
            (filter (tagged_fold byte_runes letter_fold "italian") [R1; R2; Q3])),
       [R1; R2; Q3])
  ∧ (GoStrings.isASCII "italian" = true → ascii_tags [R1; R2; Q3] →
     SearchRecipesHandler byte_fold_loop (Some "italian") [R1; R2; Q3]
     = (mkResponse StatusOK
          (JSONRecipes (filter (tagged_lower "italian") [R1; R2; Q3])),
        [R1; R2; Q3])).
Proof.
  split; [exact byte_contract|].
  exact (search_returns_matching_in_order byte_runes letter_fold byte_fold_loop
           "italian" [R1; R2; Q3] byte_contract).
Defined.

(** * Further properties of the store *)

(** ** The scan and the safety of indexing *)

Lemma match_or_not id recipes :
  Forall (λ r, ID r ≠ id) recipes ∨ ∃ r, r ∈ recipes ∧ ID r = id.
Proof.
  induction recipes as [|r rest [IH|(r' & Hr' & Hid)]].
  - by left.
  - destruct (decide (ID r = id)) as [Hid|Hid].
    + right. exists r. split; [left | done].
    + left. by constructor.
  - right. exists r'. split; [by right | done].
Qed.

Lemma last_match_unique id recipes k k' :
  last_match id recipes k → last_match id recipes k' → k = k'.
Proof.
  intros [Hk Hmax] [Hk' Hmax']. apply Hmax in Hk'. apply Hmax' in Hk. lia.
Qed.

Lemma find_index_last id recipes k :
  last_match id recipes k → find_index id recipes = Z.of_nat k.
Proof.
  intros Hlast.
  destruct (find_index_found id recipes) as (k' & Hix & Hlast').
  { apply matches_at_elem_of. exists k. apply Hlast. }
  by rewrite (last_match_unique id recipes k k').
Qed.

(** X1: the scan answers -1 exactly when no element has the id; any other
    answer is an index inside the slice, so [recipes[index]] and the two
    slicing expressions of delete are within bounds. *)
Theorem find_index_in_range id recipes :
  (find_index id recipes = (-1)%Z ↔ Forall (λ r, ID r ≠ id) recipes)
  ∧ (-1 ≤ find_index id recipes < len recipes)%Z.
Proof.
  unfold len. destruct (match_or_not id recipes) as [Hno|Hyes].
  - pose proof (find_index_not_found id recipes Hno) as Hix.
    rewrite Hix. split; [done | lia].
  - destruct (find_index_found id recipes Hyes) as (k & Hix & Hk & _).
    apply matches_at_lt in Hk as Hlt. rewrite Hix. split; [|lia].
    split; [lia|]. intros Hno. destruct Hyes as (r & Hr & Hid).
    rewrite Forall_forall in Hno. by destruct (Hno r Hr).
Qed.

(** X2: update never panics, whatever the id, the body and the collection; it
    keeps the length of the collection, and it answers OK exactly when the
    body was decoded and some element has the id. *)
Theorem update_never_panics id body recipes :
  ∃ resp recipes',
    UpdateRecipeHandler id body recipes = Some (resp, recipes')
    ∧ length recipes' = length recipes
    ∧ (Status resp = StatusOK
       ↔ (∃ payload, body = Bound payload) ∧ ∃ r, r ∈ recipes ∧ ID r = id).
Proof.
  destruct body as [payload|err].
  - destruct (match_or_not id recipes) as [Hno|Hyes].
    + exists (mkResponse StatusNotFound (JSONError "Recipe not found")), recipes.
      split; [|split; [done|]].
      * unfold UpdateRecipeHandler.
        by rewrite (find_index_not_found id recipes Hno).
      * split; [discriminate|]. intros [_ (r & Hr & Hid)].
        rewrite Forall_forall in Hno. by destruct (Hno r Hr).
    + destruct (find_index_found id recipes Hyes) as (k & Hix & Hk & _).
      apply matches_at_lt in Hk.
      exists (mkResponse StatusOK (JSONRecipe payload)), (<[k := payload]> recipes).
      split; [by apply Update_at|]. split; [apply length_insert|].
      split; [|done]. intros _. split; [by exists payload | done].
  - exists (mkResponse StatusBadRequest (JSONError err)), recipes.
    split; [done|]. split; [done|].
    split; [discriminate|]. intros [[payload [=]] _].
Qed.

(** X3: delete never panics either; it answers OK exactly when some element has
    the id, and then the collection is one element shorter, otherwise it is
    the same collection. *)
Theorem delete_never_panics id recipes :
  ∃ resp recipes',
    DeleteRecipeHandler id recipes = Some (resp, recipes')
    ∧ (Status resp = StatusOK ↔ ∃ r, r ∈ recipes ∧ ID r = id)
    ∧ (Status resp = StatusNotFound ↔ Forall (λ r, ID r ≠ id) recipes)
    ∧ length recipes'
      = if bool_decide (Status resp = StatusOK)
        then length recipes - 1 else length recipes.
Proof.
  destruct (match_or_not id recipes) as [Hno|Hyes].
  - exists (mkResponse StatusNotFound (JSONError "Recipe not found")), recipes.
    split.
    { unfold DeleteRecipeHandler. by rewrite (find_index_not_found id recipes Hno). }
    split; [|split; [done|done]].
    split; [discriminate|]. intros (r & Hr & Hid).
    rewrite Forall_forall in Hno. by destruct (Hno r Hr).
  - destruct (find_index_found id recipes Hyes) as (k & Hix & Hk & _).
    apply matches_at_lt in Hk.
    exists (mkResponse StatusOK (JSONMessage "Recipe has been deleted")),
      (delete k recipes).
    split; [rewrite delete_take_drop; by apply Delete_at|].
    split; [done|]. split.
    + split; [discriminate|]. intros Hno. destruct Hyes as (r & Hr & Hid).
      rewrite Forall_forall in Hno. by destruct (Hno r Hr).
    + simpl. rewrite length_delete; [lia|]. by apply lookup_lt_is_Some_2.
Qed.

(** ** How the operations compose *)

Lemma NewRecipeHandler_stamped xid_New now payload recipes :
  NewRecipeHandler xid_New now (Bound payload) recipes
  = (mkResponse StatusOK (JSONRecipe (stamped xid_New now payload)),
     recipes ++ [stamped xid_New now payload]).
Proof. done. Qed.

Lemma last_match_snoc id recipes r :
  ID r = id → last_match id (recipes ++ [r]) (length recipes).
Proof.
  intros Hid. split.
  - exists r. split; [|done]. by apply list_lookup_middle.
  - intros j Hj%matches_at_lt. rewrite length_app in Hj. simpl in Hj. lia.
Qed.

(** X4: deleting the identifier a create has just handed out undoes the
    create: the collection is again what it was before the two calls, even
    when older elements carry the same identifier. *)
Theorem create_then_delete xid_New now payload recipes :
  DeleteRecipeHandler xid_New
    (NewRecipeHandler xid_New now (Bound payload) recipes).2
  = Some (mkResponse StatusOK (JSONMessage "Recipe has been deleted"), recipes).
Proof.
  rewrite NewRecipeHandler_stamped. cbn [snd].
  rewrite (Delete_at xid_New _ (length recipes)).
  - rewrite take_app_length.
    rewrite drop_ge by (rewrite length_app; simpl; lia).
    by rewrite app_nil_r.
  - apply find_index_last. by apply last_match_snoc.
  - rewrite length_app. simpl. lia.
Qed.

(** X5: an update under the identifier a create has just handed out replaces
    the record that create stored, and no older element. *)
Theorem create_then_update xid_New now payload payload' recipes :
  UpdateRecipeHandler xid_New (Bound payload')
    (NewRecipeHandler xid_New now (Bound payload) recipes).2
  = Some (mkResponse StatusOK (JSONRecipe payload'), recipes ++ [payload']).
Proof.
  rewrite NewRecipeHandler_stamped. cbn [snd].
  rewrite (Update_at xid_New _ _ (length recipes)).
  - by rewrite insert_app_r_alt, Nat.sub_diag by lia.
  - apply find_index_last. by apply last_match_snoc.
  - rewrite length_app. simpl. lia.
Qed.

Lemma create_all_app requests recipes :
  create_all requests recipes
  = recipes ++ ((λ '(xid_New, now, payload), stamped xid_New now payload)
                <$> requests).
Proof.
  revert recipes. induction requests as [|[[x now] p] requests IH];
    intros recipes; simpl.
  - by rewrite app_nil_r.
  - rewrite IH. by rewrite <- app_assoc.
Qed.

(** X6: after a run of creates the listing is the old collection followed by
    the stored records, one per request and in the order of the requests;
    listing changes nothing. *)
Theorem list_after_creates requests recipes :
  ListRecipesHandler (create_all requests recipes)
  = (mkResponse StatusOK
       (JSONRecipes
          (recipes ++ ((λ '(xid_New, now, payload), stamped xid_New now payload)
                       <$> requests))),
     create_all requests recipes)
  ∧ length (create_all requests recipes) = length recipes + length requests.
Proof.
  unfold ListRecipesHandler. rewrite create_all_app. split; [done|].
  by rewrite length_app, length_fmap.
Qed.

(** X7: an update whose payload carries the id it is addressed to can be
    repeated: the second call gives the answer and the collection of the
    first. *)
Theorem update_idempotent id payload recipes resp recipes' :
  ID payload = id →
  UpdateRecipeHandler id (Bound payload) recipes = Some (resp, recipes') →
  UpdateRecipeHandler id (Bound payload) recipes' = Some (resp, recipes').
Proof.
  intros Hid H. destruct (match_or_not id recipes) as [Hno|Hyes].
  - unfold UpdateRecipeHandler in H.
    rewrite (find_index_not_found id recipes Hno) in H. simpl in H.
    injection H as <- <-. unfold UpdateRecipeHandler.
    by rewrite (find_index_not_found id recipes Hno).
  - destruct (find_index_found id recipes Hyes) as (k & Hix & Hk & Hmax).
    apply matches_at_lt in Hk as Hlt.
    rewrite (Update_at id payload recipes k Hix Hlt) in H.
    injection H as <- <-.
    rewrite (Update_at id payload _ k).
    + by rewrite list_insert_insert_eq.
    + apply find_index_last. split.
      * exists payload. split; [|done]. by apply list_lookup_insert_eq.
      * intros j (r & Hj & Hr). destruct (decide (j = k)) as [->|Hne]; [lia|].
        apply Hmax. exists r. split; [|done].
        by rewrite list_lookup_insert_ne in Hj.
    + by rewrite length_insert.
Qed.

Lemma update_idempotent_witness :
  ID D1 = "B"
  ∧ UpdateRecipeHandler "B" (Bound D1) [R1; R2; R3]
    = Some (mkResponse StatusOK (JSONRecipe D1), [R1; D1; R3])
  ∧ UpdateRecipeHandler "B" (Bound D1) [R1; D1; R3]
    = Some (mkResponse StatusOK (JSONRecipe D1), [R1; D1; R3]).
Proof.
  split; [reflexivity|]. split; [reflexivity|].
  apply (update_idempotent "B" D1 [R1; R2; R3]); reflexivity.
Defined.

(** X8: an update whose payload carries the id it is addressed to leaves the
    sequence of ids of the collection as it was. *)
Theorem update_keeps_ids id payload recipes resp recipes' :
  ID payload = id →
  UpdateRecipeHandler id (Bound payload) recipes = Some (resp, recipes') →
  ID <$> recipes' = ID <$> recipes.
Proof.
  intros Hid H. destruct (match_or_not id recipes) as [Hno|Hyes].
  - unfold UpdateRecipeHandler in H.
    rewrite (find_index_not_found id recipes Hno) in H. simpl in H.
    by injection H as <- <-.
  - destruct (find_index_found id recipes Hyes) as (k & Hix & Hk & _).
    apply matches_at_lt in Hk as Hlt.
    rewrite (Update_at id payload recipes k Hix Hlt) in H.
    injection H as <- <-. rewrite list_fmap_insert.
    apply list_insert_id. rewrite list_lookup_fmap.
    destruct Hk as (r & -> & Hr). simpl. congruence.
Qed.

Lemma update_keeps_ids_witness :
  ID D1 = "B"
  ∧ UpdateRecipeHandler "B" (Bound D1) [R1; R2; R3]
    = Some (mkResponse StatusOK (JSONRecipe D1), [R1; D1; R3])
  ∧ ID <$> [R1; D1; R3] = ID <$> [R1; R2; R3].
Proof.
  split; [reflexivity|]. split; [reflexivity|].
  apply (update_keeps_ids "B" D1 [R1; R2; R3]
           (mkResponse StatusOK (JSONRecipe D1))); reflexivity.
Defined.

(** ** Counting ids, and the collection with one element per id *)

Lemma count_id_app id l1 l2 :
  count_id id (l1 ++ l2) = count_id id l1 + count_id id l2.
Proof. unfold count_id. by rewrite filter_app, length_app. Qed.

(** X9: a successful delete takes one element with the given id out of the
    collection and leaves the number of elements of every other id. *)
Theorem delete_counts id recipes :
  (∃ r, r ∈ recipes ∧ ID r = id) →
  ∃ recipes',
    DeleteRecipeHandler id recipes
    = Some (mkResponse StatusOK (JSONMessage "Recipe has been deleted"), recipes')
    ∧ S (count_id id recipes') = count_id id recipes
    ∧ ∀ id', id' ≠ id → count_id id' recipes' = count_id id' recipes.
Proof.
  intros (k & Hix & (r & Hr & Hid) & _)%find_index_found.
  assert (k < length recipes) as Hk by by eapply lookup_lt_Some.
  exists (take k recipes ++ drop (S k) recipes).
  split; [by apply Delete_at|].
  assert (∀ x, count_id x recipes
               = count_id x (take k recipes)
                 + count_id x (r :: drop (S k) recipes)) as Hsplit.
  { intros x. by rewrite <- count_id_app, take_drop_middle. }
  split.
  - rewrite count_id_app, Hsplit, count_id_cons, bool_decide_eq_true_2 by done.
    lia.
  - intros id' Hne.
    rewrite count_id_app, Hsplit, count_id_cons, bool_decide_eq_false_2
      by congruence.
    done.
Qed.

Lemma delete_counts_witness :
  (∃ r, r ∈ [D1; R1; D2] ∧ ID r = "B")
  ∧ ∃ recipes',
      DeleteRecipeHandler "B" [D1; R1; D2]
      = Some (mkResponse StatusOK (JSONMessage "Recipe has been deleted"), recipes')
      ∧ S (count_id "B" recipes') = count_id "B" [D1; R1; D2]
      ∧ ∀ id', id' ≠ "B" → count_id id' recipes' = count_id id' [D1; R1; D2].
Proof.
  assert (∃ r, r ∈ [D1; R1; D2] ∧ ID r = "B") as H.
  { exists D1. split; [left | reflexivity]. }
  split; [exact H|].
  exact (delete_counts "B" [D1; R1; D2] H).
Defined.

(** X10: create keeps the ids of the collection pairwise distinct, provided the
    identifier it draws is not in the collection yet. *)
Theorem create_keeps_ids_distinct xid_New now payload recipes :
  xid_New ∉ (ID <$> recipes) →
  NoDup (ID <$> recipes) →
  NoDup (ID <$> (NewRecipeHandler xid_New now (Bound payload) recipes).2).
Proof.
  intros Hfresh Hnd. rewrite NewRecipeHandler_stamped. cbn [snd].
  rewrite fmap_app. apply NoDup_app. split; [done|]. split.
  - intros x Hx ->%list_elem_of_singleton. done.
  - apply NoDup_singleton.
Qed.

Lemma create_keeps_ids_distinct_witness :
  ("E" ∉ (ID <$> [R1; R2; R3]))
  ∧ NoDup (ID <$> [R1; R2; R3])
  ∧ NoDup (ID <$> (NewRecipeHandler "E" 9%Z (Bound D1) [R1; R2; R3]).2).
Proof.
  assert ("E" ∉ (ID <$> [R1; R2; R3])) as Hfresh.
  { by apply (bool_decide_unpack _). }
  assert (NoDup (ID <$> [R1; R2; R3])) as Hnd.
  { by apply (bool_decide_unpack _). }
  split; [exact Hfresh|]. split; [exact Hnd|].
  exact (create_keeps_ids_distinct "E" 9%Z D1 [R1; R2; R3] Hfresh Hnd).
Defined.

(** X11: in a collection with pairwise distinct ids, a delete leaves the ids
    pairwise distinct and no element with the given id, whatever it
    answered; a second delete of the same id answers NotFound. *)
Theorem delete_distinct_ids id recipes resp recipes' :
  NoDup (ID <$> recipes) →
  DeleteRecipeHandler id recipes = Some (resp, recipes') →
  NoDup (ID <$> recipes')
  ∧ Forall (λ r, ID r ≠ id) recipes'
  ∧ DeleteRecipeHandler id recipes'
    = Some (mkResponse StatusNotFound (JSONError "Recipe not found"), recipes').
Proof.
  intros Hnd H.
  assert (NoDup (ID <$> recipes') ∧ Forall (λ r, ID r ≠ id) recipes')
    as [Hnd' Hno'].
  { destruct (match_or_not id recipes) as [Hno|Hyes].
    - unfold DeleteRecipeHandler in H.
      rewrite (find_index_not_found id recipes Hno) in H. simpl in H.
      by injection H as <- <-.
    - destruct (find_index_found id recipes Hyes)
        as (k & Hix & (r & Hr & Hid) & _).
      assert (k < length recipes) as Hk by by eapply lookup_lt_Some.
      rewrite (Delete_at id recipes k Hix Hk) in H. injection H as <- <-.
      rewrite <- delete_take_drop. split.
      + rewrite list_fmap_delete.
        eapply sublist_NoDup; [done | apply sublist_delete].
      + apply Forall_forall. intros r' [j Hj]%list_elem_of_lookup_1 Hid'.
        assert ((ID <$> recipes) !! k = Some id) as Hk1
          by (by rewrite list_lookup_fmap, Hr; simpl; f_equal).
        destruct (decide (j < k)) as [Hlt|Hge].
        * rewrite list_lookup_delete_lt in Hj by done.
          assert ((ID <$> recipes) !! j = Some id) as Hj1
            by (by rewrite list_lookup_fmap, Hj; simpl; f_equal).
          pose proof (NoDup_lookup _ _ _ _ Hnd Hj1 Hk1). lia.
        * rewrite list_lookup_delete_ge in Hj by lia.
          assert ((ID <$> recipes) !! S j = Some id) as Hj1
            by (by rewrite list_lookup_fmap, Hj; simpl; f_equal).
          pose proof (NoDup_lookup _ _ _ _ Hnd Hj1 Hk1). lia. }
  split; [done|]. split; [done|].
  unfold DeleteRecipeHandler.
  by rewrite (find_index_not_found id recipes' Hno').
Qed.

Lemma delete_distinct_ids_witness :
  NoDup (ID <$> [R1; R2; R3])
  ∧ DeleteRecipeHandler "B" [R1; R2; R3]
    = Some (mkResponse StatusOK (JSONMessage "Recipe has been deleted"), [R1; R3])
  ∧ NoDup (ID <$> [R1; R3])
  ∧ Forall (λ r, ID r ≠ "B") [R1; R3]
  ∧ DeleteRecipeHandler "B" [R1; R3]
    = Some (mkResponse StatusNotFound (JSONError "Recipe not found"), [R1; R3]).
Proof.
  assert (NoDup (ID <$> [R1; R2; R3])) as Hnd.
  { by apply (bool_decide_unpack _). }
  split; [exact Hnd|]. split; [reflexivity|].
  exact (delete_distinct_ids "B" [R1; R2; R3] _ [R1; R3] Hnd eq_refl).
Defined.

(** ** Search after the other operations, and the case of ASCII tags *)

Section SearchCompose.
Import GoStrings.
Variable hasUnicode : string → string → bool.

Lemma found_recipes_filter q recipes :
  found_recipes (SearchRecipesHandler hasUnicode q recipes)
  = filter (has_tag hasUnicode (Query q)) recipes.
Proof. by rewrite SearchRecipesHandler_filter. Qed.

Lemma filter_sublist_mono (P : Recipe → Prop) `{!∀ x, Decision (P x)} l1 l2 :
  l1 `sublist_of` l2 → filter P l1 `sublist_of` filter P l2.
Proof.
  induction 1 as [|x l1 l2 _ IH|x l1 l2 _ IH]; [done| |].
  - rewrite !filter_cons. destruct (decide (P x)); [by constructor | done].
  - rewrite filter_cons. destruct (decide (P x)); [by constructor | done].
Qed.

Lemma ToLower_ASCII s t :
  isASCII t = true → ToLower s = ToLower t → isASCII s = true.
Proof.
  revert t. induction s as [|a s IH]; intros [|b t]; simpl; try done.
  intros [Hb%Z.ltb_lt Ht]%andb_true_iff [= Hab Hst].
  apply andb_true_iff. split; [|by eapply IH].
  apply Z.ltb_lt. apply (f_equal byte) in Hab. rewrite !byte_lower in Hab.
  pose proof (byte_range a). pose proof (byte_range b). unfold RuneSelf in *.
  destruct (Z.leb_spec 65 (byte a)), (Z.leb_spec (byte a) 90),
    (Z.leb_spec 65 (byte b)), (Z.leb_spec (byte b) 90); simpl in Hab; lia.
Qed.

End SearchCompose.

(** X12: after a create, a search answers what it answered before, followed by
    the stored record when the payload has a matching tag; the new record
    never displaces or reorders an older result. *)
Theorem search_after_create
    (hasUnicode : string → string → bool) (q : option string)
    (xid_New : string) (now : Time) (payload : Recipe) (recipes : list Recipe) :
  found_recipes
    (SearchRecipesHandler hasUnicode q
       (NewRecipeHandler xid_New now (Bound payload) recipes).2)
  = found_recipes (SearchRecipesHandler hasUnicode q recipes)
    ++ (if decide (has_tag hasUnicode (Query q) payload)
        then [stamped xid_New now payload] else []).
Proof.
  rewrite NewRecipeHandler_stamped. cbn [snd].
  rewrite !found_recipes_filter, filter_app. f_equal.
Qed.

(** X13: a delete never adds a search result nor reorders the results: what a
    search answers afterwards is what it answered before with at most some
    element left out. *)
Theorem search_after_delete
    (hasUnicode : string → string → bool) (q : option string)
    (id : string) (recipes : list Recipe) :
  ∃ resp recipes',
    DeleteRecipeHandler id recipes = Some (resp, recipes')
    ∧ found_recipes (SearchRecipesHandler hasUnicode q recipes')
      `sublist_of` found_recipes (SearchRecipesHandler hasUnicode q recipes).
Proof.
  destruct (match_or_not id recipes) as [Hno|Hyes].
  - exists (mkResponse StatusNotFound (JSONError "Recipe not found")), recipes.
    split; [|done]. unfold DeleteRecipeHandler.
    by rewrite (find_index_not_found id recipes Hno).
  - destruct (find_index_found id recipes Hyes) as (k & Hix & Hk & _).
    apply matches_at_lt in Hk.
    exists (mkResponse StatusOK (JSONMessage "Recipe has been deleted")),
      (delete k recipes).
    split; [rewrite delete_take_drop; by apply Delete_at|].
    rewrite !found_recipes_filter.
    apply filter_sublist_mono, sublist_delete.
Qed.

(** X14: on a collection whose tags are ASCII text, two ASCII tag strings with
    the same lower-case form get the same answer: the search does not see
    the case of the letters of the tag string. *)
Theorem search_ignores_case
    (hasUnicode : string → string → bool) (tag1 tag2 : string)
    (recipes : list Recipe) :
  ascii_tags recipes →
  GoStrings.isASCII tag1 = true → GoStrings.isASCII tag2 = true →
  GoStrings.ToLower tag1 = GoStrings.ToLower tag2 →
  SearchRecipesHandler hasUnicode (Some tag1) recipes
  = SearchRecipesHandler hasUnicode (Some tag2) recipes.
Proof.
  intros Hrs H1 H2 Hlow. rewrite !SearchRecipesHandler_filter. simpl.
  f_equal. f_equal. f_equal.
  induction Hrs as [|r rest Hr _ IH]; [done|].
  rewrite !filter_cons, IH.
  assert (has_tag hasUnicode tag1 r ↔ has_tag hasUnicode tag2 r) as Hiff
    by (rewrite !has_tag_ASCII by done; by rewrite Hlow).
  destruct (decide (has_tag hasUnicode tag1 r)),
    (decide (has_tag hasUnicode tag2 r)); tauto.
Qed.

Lemma search_ignores_case_witness :
  ascii_tags [R1; R2; Q3]
  ∧ GoStrings.isASCII "QuIcK" = true ∧ GoStrings.isASCII "quick" = true
  ∧ GoStrings.ToLower "QuIcK" = GoStrings.ToLower "quick"
  ∧ ∀ hasUnicode,
      SearchRecipesHandler hasUnicode (Some "QuIcK") [R1; R2; Q3]
      = SearchRecipesHandler hasUnicode (Some "quick") [R1; R2; Q3].
Proof.
  assert (ascii_tags [R1; R2; Q3]) as Hrs
    by (repeat constructor).
  split; [exact Hrs|]. split; [reflexivity|]. split; [reflexivity|].
  split; [reflexivity|]. intros hasUnicode.
  exact (search_ignores_case hasUnicode "QuIcK" "quick" [R1; R2; Q3]
           Hrs eq_refl eq_refl eq_refl).
Defined.

(** X15: a recipe of the collection is found under each of its tags, in any
    mixture of upper and lower case, when the tag string is ASCII text. *)
Theorem search_finds_tagged_recipe
    (hasUnicode : string → string → bool) (tag t : string)
    (r : Recipe) (recipes : list Recipe) :
  r ∈ recipes → t ∈ Tags r →
  GoStrings.isASCII tag = true →
  GoStrings.ToLower t = GoStrings.ToLower tag →
  r ∈ found_recipes (SearchRecipesHandler hasUnicode (Some tag) recipes).
Proof.
  intros Hr Ht Htag Hlow. rewrite found_recipes_filter. simpl.
  apply list_elem_of_filter. split; [|done].
  unfold has_tag. apply Exists_exists. exists t. split; [done|].
  apply EqualFold_ASCII; [|done|done].
  by apply (ToLower_ASCII t tag).
Qed.

Lemma search_finds_tagged_recipe_witness :
  R1 ∈ [R2; R1] ∧ "Italian" ∈ Tags R1
  ∧ GoStrings.isASCII "ITALIAN" = true
  ∧ GoStrings.ToLower "Italian" = GoStrings.ToLower "ITALIAN"
  ∧ ∀ hasUnicode,
      R1 ∈ found_recipes (SearchRecipesHandler hasUnicode (Some "ITALIAN") [R2; R1]).
Proof.
  assert (R1 ∈ [R2; R1]) as Hr by (right; left).
  assert ("Italian" ∈ Tags R1) as Ht by left.
  split; [exact Hr|]. split; [exact Ht|]. split; [reflexivity|].
  split; [reflexivity|]. intros hasUnicode.
  exact (search_finds_tagged_recipe hasUnicode "ITALIAN" "Italian" R1 [R2; R1]
           Hr Ht eq_refl eq_refl).
Defined.

(** ** Update followed by delete *)

Lemma last_match_insert id payload recipes k :
  ID payload = id → last_match id recipes k →
  last_match id (<[k := payload]> recipes) k.
Proof.
  intros Hid [Hk Hmax]. apply matches_at_lt in Hk as Hlt. split.
  - exists payload. split; [|done]. by apply list_lookup_insert_eq.
  - intros j (r & Hj & Hr). destruct (decide (j = k)) as [->|Hne]; [lia|].
    apply Hmax. exists r. split; [|done].
    by rewrite list_lookup_insert_ne in Hj.
Qed.

(** X16: after an update whose payload carries the id it is addressed to, a
    delete of that id answers and leaves what it would have without the
    update: the element the update wrote is the one the delete removes. *)
Theorem update_then_delete id payload recipes resp recipes' :
  ID payload = id →
  UpdateRecipeHandler id (Bound payload) recipes = Some (resp, recipes') →
  DeleteRecipeHandler id recipes' = DeleteRecipeHandler id recipes.
Proof.
  intros Hid H. destruct (match_or_not id recipes) as [Hno|Hyes].
  - unfold UpdateRecipeHandler in H.
    rewrite (find_index_not_found id recipes Hno) in H. simpl in H.
    by injection H as <- <-.
  - destruct (find_index_found id recipes Hyes) as (k & Hix & Hlast).
    assert (k < length recipes) as Hlt by (eapply matches_at_lt, Hlast).
    rewrite (Update_at id payload recipes k Hix Hlt) in H.
    injection H as <- <-.
    rewrite (Delete_at id recipes k Hix Hlt).
    rewrite (Delete_at id (<[k := payload]> recipes) k).
    + by rewrite take_insert_ge, drop_insert_lt by lia.
    + by apply find_index_last, last_match_insert.
    + by rewrite length_insert.
Qed.

Lemma update_then_delete_witness :
  ID D1 = "B"
  ∧ UpdateRecipeHandler "B" (Bound D1) [R1; R2; R3]
    = Some (mkResponse StatusOK (JSONRecipe D1), [R1; D1; R3])
  ∧ DeleteRecipeHandler "B" [R1; D1; R3] = DeleteRecipeHandler "B" [R1; R2; R3].
Proof.
  split; [reflexivity|]. split; [reflexivity|].
  exact (update_then_delete "B" D1 [R1; R2; R3]
           (mkResponse StatusOK (JSONRecipe D1)) [R1; D1; R3] eq_refl eq_refl).
Defined.
